(** * report/controls.go: control catalogs, per-node control snapshots and
      their wire codec

    A shallow embedding of [src/report/controls.go] and the properties the
    specification states about it.

    Layout:
    - [Time]: the instants of Go's [time.Time] and its [Before];
    - [StringSet]: the identifier set consumed by [NodeControls];
    - [Controls]: the catalog, a Go map, i.e. a reference into a store;
    - [NodeControls]: [MakeNodeControls], [Merge], [Add], the JSON stubs;
    - the codec: a token stream, the decoder driver, [CodecEncodeSelf] and
      [CodecDecodeSelf];
    - the theorems. *)

From Stdlib Require Import ZArith Lia String List.
From stdpp Require Import base gmap sets list strings.

Local Open Scope Z_scope.

(* ===================================================================== *)
(** ** Go values used by the file *)
(* ===================================================================== *)

(** [time.Time], reduced to the instant it denotes: seconds since the zero
    time (January 1, year 1, 00:00 UTC) and nanoseconds within the second.
    The location pointer and the monotonic reading of Go's struct are left
    out; [Before] and [IsZero] compare instants only.  The theorems on
    [Merge] use that [Before] is irreflexive and asymmetric and that two
    different instants are ordered; they do not use transitivity, which
    Go's [Before] lacks across readings with and without a monotonic
    part. *)
Record Time : Type := mkTime { sec : Z; nsec : Z }.

(** The zero value of [time.Time]. *)
Definition zeroTime : Time := mkTime 0 0.

(** [func (t Time) Before(u Time) bool]:
    [ts < us || ts == us && t.nsec() < u.nsec()]. *)
Definition Before (t u : Time) : bool :=
  (sec t <? sec u) || ((sec t =? sec u) && (nsec t <? nsec u)).

(** [func (t Time) IsZero() bool]. *)
Definition IsZero (t : Time) : bool := (sec t =? 0) && (nsec t =? 0).

#[global] Instance Time_eq_dec : EqDecision Time.
Proof. solve_decision. Defined.

(** The outcome of running a Go function: it returns, or it panics with a
    message.  [OutOfFuel] is an artefact of the embedding of loops and is
    shown unreachable for the decoder ([CodecDecodeSelf_total]). *)
Inductive outcome (A : Type) : Type :=
  | Ok (a : A)
  | Panic (msg : string)
  | OutOfFuel.
Arguments Ok {A} a.
Arguments Panic {A} msg.
Arguments OutOfFuel {A}.

(** Modelled from the spec: [StringSet] ([report/string_set.go] is not among
    the sources).  The spec describes it as "an immutable-style set of
    identifiers supporting add-returning-new-set and union"; it is a finite
    set of strings, [MakeStringSet()] is the empty set and [Add] returns the
    union of the receiver with the identifiers given. *)
Abbreviation StringSet := (gset string).

Definition MakeStringSet : StringSet := ∅.

Definition StringSet_Add (s : StringSet) (strs : list string) : StringSet :=
  s ∪ list_to_set strs.

(* ===================================================================== *)
(** ** Controls: the catalog *)
(* ===================================================================== *)

(** [type Control struct { ID, Human, Icon string; Rank int }] *)
Record Control : Type := mkControl {
  ID : string;
  Human : string;
  Icon : string;
  Rank : Z
}.

#[global] Instance Control_eq_dec : EqDecision Control.
Proof. solve_decision. Defined.

(** [type Controls map[string]Control].  A Go map is a reference: a value of
    type [Controls] is either [nil] or the address of a map object.  The
    store maps addresses to the contents of the map objects. *)
Definition loc := positive.
Abbreviation Store := (gmap loc (gmap string Control)).

Definition Controls : Type := option loc.

(** The entries of a catalog; reading the nil map gives no entry. *)
Definition entries (h : Store) (cs : Controls) : gmap string Control :=
  match cs with
  | None => ∅
  | Some l => default ∅ (h !! l)
  end.

(** A catalog value of the program is nil or the address of a live map. *)
Definition live (h : Store) (cs : Controls) : Prop :=
  match cs with
  | None => True
  | Some l => l ∈ dom h
  end.

(** [Controls{}]: a new, empty map object. *)
Definition newMap (h : Store) : Store * loc :=
  let l := fresh (dom h) in (<[l := ∅]> h, l).

(** [m[k] = v] on the map object at [l]. *)
Definition assign (h : Store) (l : loc) (k : string) (v : Control) : Store :=
  <[l := <[k := v]> (default ∅ (h !! l))]> h.

(** [for k, v := range m { result[k] = v }], the entries of [m] visited in
    the order [order]; Go leaves the order of a map iteration unspecified. *)
Definition rangeAssign (order : list (string * Control))
    (h : Store) (result : loc) : Store :=
  foldl (fun h kv => assign h result kv.1 kv.2) h order.

(** [func (cs Controls) Copy() Controls] *)
Definition Controls_Copy (h : Store) (cs : Controls) : Store * Controls :=
  let '(h1, result) := newMap h in
  (rangeAssign (map_to_list (entries h1 cs)) h1 result, Some result).

(** [func (cs Controls) Merge(other Controls) Controls] *)
Definition Controls_Merge (h : Store) (cs other : Controls)
    : Store * Controls :=
  match Controls_Copy h cs with
  | (h1, Some result) =>
      (rangeAssign (map_to_list (entries h1 other)) h1 result, Some result)
  | (h1, None) => (h1, None)
  end.

(** [func (cs Controls) AddControl(c Control)]: [cs[c.ID] = c]; an
    assignment to an entry of the nil map panics. *)
Definition Controls_AddControl (h : Store) (cs : Controls) (c : Control)
    : outcome Store :=
  match cs with
  | None => Panic "assignment to entry in nil map"
  | Some l => Ok (assign h l (ID c) c)
  end.

(** [func (cs Controls) AddControls(controls []Control)] *)
Fixpoint Controls_AddControls (h : Store) (cs : Controls)
    (controls : list Control) : outcome Store :=
  match controls with
  | [] => Ok h
  | c :: rest =>
      match Controls_AddControl h cs c with
      | Ok h' => Controls_AddControls h' cs rest
      | other => other
      end
  end.

(* ===================================================================== *)
(** ** NodeControls *)
(* ===================================================================== *)

(** [type NodeControls struct { Timestamp time.Time; Controls StringSet }] *)
Record NodeControls : Type := mkNodeControls {
  nc_Timestamp : Time;
  nc_Controls : StringSet
}.

(** [var emptyNodeControls = NodeControls{Controls: MakeStringSet()}] *)
Definition emptyNodeControls : NodeControls :=
  {| nc_Timestamp := zeroTime; nc_Controls := MakeStringSet |}.

(** [func MakeNodeControls() NodeControls] *)
Definition MakeNodeControls : NodeControls := emptyNodeControls.

(** [func (nc NodeControls) Merge(other NodeControls) NodeControls] *)
Definition NodeControls_Merge (nc other : NodeControls) : NodeControls :=
  if Before (nc_Timestamp nc) (nc_Timestamp other) then other else nc.

(** [func (nc NodeControls) Add(ids ...string) NodeControls].  [now] is the
    reading [mtime.Now()] returns at the call. *)
Definition NodeControls_Add (now : Time) (nc : NodeControls)
    (ids : list string) : NodeControls :=
  {| nc_Timestamp := now;
     nc_Controls := StringSet_Add (nc_Controls nc) ids |}.

(** [MarshalJSON() ([]byte, error)], on a value receiver. *)
Definition NodeControls_MarshalJSON (nc : NodeControls)
    : outcome (list Byte.byte * option string) :=
  Panic "MarshalJSON shouldn't be used, use CodecEncodeSelf instead".

(** [UnmarshalJSON(b []byte) error], on a pointer receiver. *)
Definition NodeControls_UnmarshalJSON (nc : NodeControls)
    (b : list Byte.byte) : outcome (NodeControls * option string) :=
  Panic "UnmarshalJSON shouldn't be used, use CodecDecodeSelf instead".

(* ===================================================================== *)
(** ** The wire and the decoder driver *)
(* ===================================================================== *)

(** The codec library ([github.com/ugorji/go/codec]) reads and writes a
    stream of self-describing items.  The stream is modelled at the level of
    these items, as a binary handle such as MessagePack produces them (it
    has no separators between keys and values, so the
    [DecSendContainerState] calls of the source have no effect on it). *)
Inductive token : Type :=
  | TNil                       (* the nil item *)
  | TMapStart (n : nat)        (* header of a map of [n] entries *)
  | TMapIndef                  (* header of a map of indefinite length *)
  | TBreak                     (* end of an indefinite-length container *)
  | TArrayStart (n : nat)      (* header of an array of [n] elements *)
  | TStr (s : string)          (* a string *)
  | TInt (z : Z).              (* an integer *)

#[global] Instance token_eq_dec : EqDecision token.
Proof. solve_decision. Defined.

(** A decoding step reads from the stream and returns what is left of it,
    or panics (the library turns the panic into the error [Decode]
    returns). *)
Definition Dec (A : Type) : Type := list token -> outcome (A * list token).

Definition ret {A} (a : A) : Dec A := fun ts => Ok (a, ts).

Definition bind {A B} (c : Dec A) (k : A -> Dec B) : Dec B :=
  fun ts =>
    match c ts with
    | Ok (a, ts') => k a ts'
    | Panic msg => Panic msg
    | OutOfFuel => OutOfFuel
    end.

Definition panic {A} (msg : string) : Dec A := fun _ => Panic msg.

Notation "x <- c1 ;; c2" := (bind c1 (fun x => c2))
  (at level 100, c1 at next level, right associativity).

(** [r.TryDecodeAsNil()]: consumes the next item when it is nil. *)
Definition TryDecodeAsNil : Dec bool := fun ts =>
  match ts with
  | [] => Panic "EOF"
  | TNil :: ts' => Ok (true, ts')
  | _ :: _ => Ok (false, ts)
  end.

(** [r.ReadMapStart()]: the number of entries, or -1 for a map of
    indefinite length. *)
Definition ReadMapStart : Dec Z := fun ts =>
  match ts with
  | [] => Panic "EOF"
  | TMapStart n :: ts' => Ok (Z.of_nat n, ts')
  | TMapIndef :: ts' => Ok (-1, ts')
  | _ :: _ => Panic "ReadMapStart: not a map"
  end.

(** [r.CheckBreak()]: consumes the next item when it is a break. *)
Definition CheckBreak : Dec bool := fun ts =>
  match ts with
  | [] => Panic "EOF"
  | TBreak :: ts' => Ok (true, ts')
  | _ :: _ => Ok (false, ts)
  end.

(** [r.DecodeBytes(buf, true, true)]: the bytes of the next item, a string;
    nil gives the nil slice. *)
Definition DecodeBytes : Dec string := fun ts =>
  match ts with
  | [] => Panic "EOF"
  | TStr s :: ts' => Ok (s, ts')
  | TNil :: ts' => Ok (EmptyString, ts')
  | _ :: _ => Panic "DecodeBytes: not a string"
  end.

(** [r.DecodeString()] *)
Definition DecodeString : Dec string := fun ts =>
  match ts with
  | [] => Panic "EOF"
  | TStr s :: ts' => Ok (s, ts')
  | TNil :: ts' => Ok (EmptyString, ts')
  | _ :: _ => Panic "DecodeString: not a string"
  end.

(** Modelled from the spec: the codec of [StringSet] (generated code, not
    among the sources).  On the wire the set is a "sequence of string
    identifiers"; decoding reads the array header and that many strings and
    stores them as the set, replacing what the receiver held. *)
Fixpoint decodeStrings (n : nat) : Dec (list string) :=
  match n with
  | O => ret []
  | S n' => s <- DecodeString ;; l <- decodeStrings n' ;; ret (s :: l)
  end.

Definition StringSet_CodecDecodeSelf (s : StringSet) : Dec StringSet :=
  fun ts =>
    match ts with
    | [] => Panic "EOF"
    | TArrayStart n :: ts' => (l <- decodeStrings n ;; ret (list_to_set l)) ts'
    | _ :: _ => Panic "StringSet: not an array"
    end.

(* ===================================================================== *)
(** ** The codec of NodeControls *)
(* ===================================================================== *)

(** [type wireNodeControls struct] with its two tagged fields
    ([json:"timestamp,omitempty"], [json:"controls,omitempty"]). *)
Record wireNodeControls : Type := mkWire {
  w_Timestamp : string;
  w_Controls : StringSet
}.

(** An entry of the wire object: the key [timestamp] with a string, or the
    key [controls] with nil ([None]) or a sequence of identifiers. *)
Inductive wireField : Type :=
  | FTimestamp (s : string)
  | FControls (ids : option (list string)).

Definition fieldTokens (f : wireField) : list token :=
  match f with
  | FTimestamp s => [TStr "timestamp"; TStr s]
  | FControls None => [TStr "controls"; TNil]
  | FControls (Some ids) =>
      TStr "controls" :: TArrayStart (length ids) :: map TStr ids
  end.

Definition fieldsTokens (fs : list wireField) : list token :=
  concat (map fieldTokens fs).

(** A map of definite length holding the entries [fs], in that order. *)
Definition payloadTokens (fs : list wireField) : list token :=
  TMapStart (length fs) :: fieldsTokens fs.

(** The same entries as a map of indefinite length. *)
Definition payloadTokensIndef (fs : list wireField) : list token :=
  TMapIndef :: fieldsTokens fs ++ [TBreak].

(** The entries [encoder.Encode] writes for a [wireNodeControls]: the
    fields in declaration order, a field tagged [omitempty] left out when
    its value is empty (a string or a slice of length 0). *)
Definition wireFields (w : wireNodeControls) : list wireField :=
  (if String.eqb (w_Timestamp w) EmptyString then [] else [FTimestamp (w_Timestamp w)])
  ++ match elements (w_Controls w) with
     | [] => []
     | ids => [FControls (Some ids)]
     end.

Section Codec.

(** [renderTime] and [parseTime] live in another file of the package, which
    is not among the sources; the codec is parametric in them. *)
Variable renderTime : Time -> string.
Variable parseTime : string -> Time.

(** The struct literal of [CodecEncodeSelf]:
    [wireNodeControls{Timestamp: renderTime(nc.Timestamp),
                      Controls: nc.Controls}]. *)
Definition wireOf (nc : NodeControls) : wireNodeControls :=
  {| w_Timestamp := renderTime (nc_Timestamp nc);
     w_Controls := nc_Controls nc |}.

(** [func (nc *NodeControls) CodecEncodeSelf(encoder *codec.Encoder)]: the
    items written to the stream. *)
Definition CodecEncodeSelf (nc : NodeControls) : list token :=
  payloadTokens (wireFields (wireOf nc)).

(** Lines 116-123 of the source: the key is read with [DecodeBytes] and
    turned into a string through the address of its first byte; [&slc[0]]
    panics on an empty slice. *)
Definition decodeKey : Dec string :=
  slc <- DecodeBytes ;;
  if String.eqb slc EmptyString then panic "runtime error: index out of range"
  else ret slc.

(** The [switch string(k)] of the source.  There is no [default] case: for
    any other key nothing is read. *)
Definition decodeField (k : string) (nc : NodeControls) : Dec NodeControls :=
  if String.eqb k "timestamp" then
    s <- DecodeString ;;
    ret {| nc_Timestamp := parseTime s; nc_Controls := nc_Controls nc |}
  else if String.eqb k "controls" then
    isNil <- TryDecodeAsNil ;;
    if isNil : bool then ret nc
    else
      cs <- StringSet_CodecDecodeSelf (nc_Controls nc) ;;
      ret {| nc_Timestamp := nc_Timestamp nc; nc_Controls := cs |}
  else ret nc.

(** [for i := 0; length < 0 || i < length; i++ { ... }] *)
Fixpoint decodeLoop (fuel : nat) (length i : Z) (nc : NodeControls)
    : Dec NodeControls :=
  match fuel with
  | O => fun _ => OutOfFuel
  | S fuel' =>
      if (length <? 0) || (i <? length) then
        brk <- (if length <? 0 then CheckBreak else ret false) ;;
        if brk : bool then ret nc
        else
          k <- decodeKey ;;
          nc' <- decodeField k nc ;;
          decodeLoop fuel' length (i + 1) nc'
      else ret nc
  end.

(** [func (nc *NodeControls) CodecDecodeSelf(decoder *codec.Decoder)]: the
    receiver after the call and the rest of the stream.  Every iteration
    of the loop reads at least the key, so the length of the stream bounds
    their number. *)
Definition CodecDecodeSelf (nc : NodeControls) : Dec NodeControls :=
  isNil <- TryDecodeAsNil ;;
  if isNil : bool then ret nc
  else
    length <- ReadMapStart ;;
    fun ts => decodeLoop (S (List.length ts)) length 0 nc ts.

(** What a payload of known entries asks for: each entry, in wire order,
    overwrites its field of the receiver; a nil [controls] leaves it. *)
Definition applyField (nc : NodeControls) (f : wireField) : NodeControls :=
  match f with
  | FTimestamp s =>
      {| nc_Timestamp := parseTime s; nc_Controls := nc_Controls nc |}
  | FControls None => nc
  | FControls (Some ids) =>
      {| nc_Timestamp := nc_Timestamp nc; nc_Controls := list_to_set ids |}
  end.

Definition applyFields (nc : NodeControls) (fs : list wireField)
    : NodeControls :=
  foldl applyField nc fs.

End Codec.

Definition hasTimestamp (fs : list wireField) : bool :=
  existsb (fun f => match f with FTimestamp _ => true | _ => false end) fs.

Definition hasControls (fs : list wireField) : bool :=
  existsb (fun f => match f with FControls _ => true | _ => false end) fs.

(* ===================================================================== *)
(** ** Stream discipline, and the values of the examples *)
(* ===================================================================== *)

(** A step is tame when it never runs out of fuel and never returns more
    stream than it was given. *)
Definition tame {A} (c : Dec A) : Prop :=
  forall ts,
    match c ts with
    | Ok (_, ts') => (List.length ts' <= List.length ts)%nat
    | Panic _ => True
    | OutOfFuel => False
    end.

Definition snapRestart : NodeControls :=
  {| nc_Timestamp := mkTime 100 0; nc_Controls := {["restart"]} |}.

Definition snapPause : NodeControls :=
  {| nc_Timestamp := mkTime 200 0; nc_Controls := {["pause"; "resume"]} |}.

Definition snapPauseTie : NodeControls :=
  {| nc_Timestamp := mkTime 100 0; nc_Controls := {["pause"; "resume"]} |}.

Definition ctrlA : Control :=
  {| ID := "c1"; Human := "Restart"; Icon := "fa-repeat"; Rank := 1 |}.

Definition ctrlB : Control :=
  {| ID := "c1"; Human := "Stop"; Icon := "fa-stop"; Rank := 2 |}.

(** A store with two catalogs, [A = {"c1": ctrlA}] at address 1 and
    [B = {"c1": ctrlB}] at address 2. *)
Definition storeAB : Store :=
  <[2%positive := {["c1" := ctrlB]}]> (<[1%positive := {["c1" := ctrlA]}]> ∅).

(** A render/parse pair on a table of two instants, for the examples. *)
Definition demoRender (t : Time) : string :=
  if IsZero t then EmptyString
  else if decide (t = mkTime 100 0) then "0001-01-01T00:01:40Z"
  else "0001-01-01T00:03:20Z".

Definition demoParse (s : string) : Time :=
  if String.eqb s "0001-01-01T00:01:40Z" then mkTime 100 0
  else if String.eqb s "0001-01-01T00:03:20Z" then mkTime 200 0
  else zeroTime.



(* ===================================================================== *)
(** ** The rest of the file, and notions used to state its properties *)
(* ===================================================================== *)

(** [type NodeControlData struct { Dead bool }] *)
Record NodeControlData : Type := mkNodeControlData { Dead : bool }.

(** A catalog is keyed by identifier when every control sits under its
    own [ID]. *)
Definition keyedByID (m : gmap string Control) : Prop :=
  forall k c, m !! k = Some c -> ID c = k.

(** The last control of a sequence that carries the identifier [k]. *)
Definition lastWithID (k : string) (controls : list Control)
    : option Control :=
  last (filter (fun c => ID c = k) controls).

(** The string of the last [timestamp] entry of a payload. *)
Definition lastTimestamp (fs : list wireField) : option string :=
  foldl (fun acc f => match f with FTimestamp s => Some s | _ => acc end)
        None fs.

(** The identifiers of the last [controls] entry that is not nil. *)
Definition lastControls (fs : list wireField) : option (list string) :=
  foldl (fun acc f =>
           match f with FControls (Some ids) => Some ids | _ => acc end)
        None fs.

(** A step is frontal when it never runs out of fuel and what it returns
    of the stream is a suffix of what it was given. *)
Definition frontal {A} (c : Dec A) : Prop :=
  forall ts,
    match c ts with
    | Ok (_, ts') => ts' `suffix_of` ts
    | Panic _ => True
    | OutOfFuel => False
    end.

(* ===================================================================== *)
(** ** Instants *)
(* ===================================================================== *)

Section TimeOrder.

Implicit Types t u v : Time.

Lemma Before_irrefl t : Before t t = false.
Proof. unfold Before. destruct t as [s n]; simpl. lia. Qed.

Lemma Before_asym t u : Before t u = true -> Before u t = false.
Proof. unfold Before. destruct t, u; simpl. lia. Qed.

(** Two instants neither of which is before the other are the same. *)
Lemma Before_total t u : Before t u = false -> Before u t = false -> t = u.
Proof.
  unfold Before. destruct t as [s n], u as [s' n']; simpl. intros H1 H2.
  assert (s = s') by lia. assert (n = n') by lia. congruence.
Qed.

Lemma Before_cases t u : t <> u -> Before t u = true \/ Before u t = true.
Proof.
  intros Hne.
  destruct (Before t u) eqn:E1; [by left |].
  destruct (Before u t) eqn:E2; [by right |].
  destruct Hne. by apply Before_total.
Qed.

Lemma IsZero_spec t : IsZero t = true <-> t = zeroTime.
Proof.
  unfold IsZero, zeroTime. destruct t as [s n]; simpl. split.
  - intros H. assert (s = 0) by lia. assert (n = 0) by lia. congruence.
  - intros [= -> ->]. reflexivity.
Qed.

End TimeOrder.

(* ===================================================================== *)
(** ** NodeControls: Merge, Add and the JSON entry points *)
(* ===================================================================== *)

Section NodeControlsProps.

Implicit Types a b s : NodeControls.

Lemma Merge_before a b :
  Before (nc_Timestamp a) (nc_Timestamp b) = true -> NodeControls_Merge a b = b.
Proof. unfold NodeControls_Merge. by intros ->. Qed.

Lemma Merge_not_before a b :
  Before (nc_Timestamp a) (nc_Timestamp b) = false -> NodeControls_Merge a b = a.
Proof. unfold NodeControls_Merge. by intros ->. Qed.

Lemma Merge_tie a b :
  nc_Timestamp a = nc_Timestamp b -> NodeControls_Merge a b = a.
Proof. intros E. apply Merge_not_before. rewrite E. apply Before_irrefl. Qed.

Lemma Merge_sentinel :
  NodeControls_Merge MakeNodeControls MakeNodeControls = MakeNodeControls.
Proof. reflexivity. Qed.

(** When the timestamps differ both orders of [Merge] give the snapshot
    with the later one. *)
Lemma Merge_comm_of_ne a b :
  nc_Timestamp a <> nc_Timestamp b ->
  NodeControls_Merge a b = NodeControls_Merge b a.
Proof.
  intros Hne. destruct (Before_cases _ _ Hne) as [H | H].
  - rewrite (Merge_before a b H).
    by rewrite (Merge_not_before b a (Before_asym _ _ H)).
  - rewrite (Merge_before b a H).
    by rewrite (Merge_not_before a b (Before_asym _ _ H)).
Qed.

End NodeControlsProps.

Lemma snap_controls_differ : nc_Controls snapRestart <> nc_Controls snapPause.
Proof.
  simpl. intros E.
  assert (H : "restart" ∈ ({["pause"; "resume"]} : gset string))
    by (rewrite <- E; set_solver).
  set_solver.
Qed.

Lemma snap_pause_nonempty : nc_Controls snapPause <> ∅.
Proof. simpl. set_solver. Qed.

(** C1. [NodeControls.Merge] is last-writer-wins on the whole snapshot:
    when [a.Timestamp] is strictly before [b.Timestamp] the result is [b]
    itself, control set included; on a tie, and when [a] is the later one,
    the result is [a] itself. *)
Theorem C1_Merge_last_writer_wins (a b : NodeControls) :
  (Before (nc_Timestamp a) (nc_Timestamp b) = true ->
     NodeControls_Merge a b = b) /\
  (nc_Timestamp a = nc_Timestamp b -> NodeControls_Merge a b = a) /\
  (Before (nc_Timestamp b) (nc_Timestamp a) = true ->
     NodeControls_Merge a b = a) /\
  (Before (nc_Timestamp a) (nc_Timestamp b) = false ->
     NodeControls_Merge a b = a).
Proof.
  split; [apply Merge_before |].
  split; [apply Merge_tie |].
  split; [| apply Merge_not_before].
  intros H. apply Merge_not_before. by apply Before_asym.
Qed.

Lemma C1_Merge_last_writer_wins_witness :
  NodeControls_Merge snapRestart snapPause = snapPause /\
  nc_Controls (NodeControls_Merge snapRestart snapPause)
    = {["pause"; "resume"]} /\
  NodeControls_Merge snapRestart snapPauseTie = snapRestart /\
  NodeControls_Merge snapPause snapRestart = snapPause.
Proof.
  split; [| split; [| split]].
  - apply (C1_Merge_last_writer_wins snapRestart snapPause). reflexivity.
  - rewrite (proj1 (C1_Merge_last_writer_wins snapRestart snapPause));
      reflexivity.
  - apply (C1_Merge_last_writer_wins snapRestart snapPauseTie). reflexivity.
  - apply (C1_Merge_last_writer_wins snapPause snapRestart). reflexivity.
Defined.

(** C3, as stated, fails: the two snapshots below have different
    timestamps and both orders of [Merge] return the same value; no pair
    with different timestamps separates the two orders. *)
Lemma C3_Merge_asymmetry_counterexample :
  (nc_Timestamp snapRestart <> nc_Timestamp snapPause /\
   NodeControls_Merge snapRestart snapPause
     = NodeControls_Merge snapPause snapRestart) /\
  ~ (exists a b, nc_Timestamp a <> nc_Timestamp b /\
       NodeControls_Merge a b <> NodeControls_Merge b a).
Proof.
  split.
  - split; [discriminate | reflexivity].
  - intros (a & b & Hne & Hm). apply Hm. by apply Merge_comm_of_ne.
Qed.

(** C3, amended. [Merge] commutes whenever the timestamps differ (both
    orders give the snapshot with the later timestamp); it depends on the
    order of its arguments on ties only, where each order keeps its
    receiver, so the two results differ exactly when the snapshots do. *)
Theorem C3_Merge_order_dependence (a b : NodeControls) :
  (nc_Timestamp a <> nc_Timestamp b ->
     NodeControls_Merge a b = NodeControls_Merge b a) /\
  (nc_Timestamp a = nc_Timestamp b ->
     NodeControls_Merge a b = a /\ NodeControls_Merge b a = b) /\
  (nc_Timestamp a = nc_Timestamp b -> a <> b ->
     NodeControls_Merge a b <> NodeControls_Merge b a).
Proof.
  split; [apply Merge_comm_of_ne |].
  split.
  - intros E. split; apply Merge_tie; congruence.
  - intros E Hne. rewrite (Merge_tie a b E), (Merge_tie b a (eq_sym E)). exact Hne.
Qed.

Lemma C3_Merge_order_dependence_witness :
  NodeControls_Merge snapRestart snapPause
    = NodeControls_Merge snapPause snapRestart /\
  NodeControls_Merge snapRestart snapPauseTie
    <> NodeControls_Merge snapPauseTie snapRestart.
Proof.
  split.
  - apply (proj1 (C3_Merge_order_dependence snapRestart snapPause)).
    simpl. discriminate.
  - apply (proj2 (proj2 (C3_Merge_order_dependence snapRestart snapPauseTie))).
    + reflexivity.
    + intros E. apply snap_controls_differ.
      exact (f_equal nc_Controls E).
Defined.

(** C7. Both generic JSON entry points panic on every receiver and every
    input; neither ever returns. *)
Theorem C7_JSON_entry_points_panic :
  (forall nc, exists msg, NodeControls_MarshalJSON nc = Panic msg) /\
  (forall nc b, exists msg, NodeControls_UnmarshalJSON nc b = Panic msg) /\
  (forall nc r, NodeControls_MarshalJSON nc <> Ok r) /\
  (forall nc b r, NodeControls_UnmarshalJSON nc b <> Ok r).
Proof.
  repeat split; intros; try discriminate.
  - by eexists.
  - by eexists.
Qed.

(** C8, as stated, fails: [Add] stamps the result with the clock reading
    whatever the receiver holds, so a receiver stamped ahead of the clock
    (here 200 s against a reading of 150 s) gets an earlier timestamp. *)
Lemma C8_Add_timestamp_counterexample :
  Before (nc_Timestamp (NodeControls_Add (mkTime 150 0) snapPause ["kill"]))
         (nc_Timestamp snapPause) = true.
Proof. reflexivity. Qed.

(** C8, amended. [Add] returns a snapshot whose control set is the union
    of the receiver's set and the identifiers given, and whose timestamp is
    the clock reading; it is not before the receiver's timestamp whenever
    the clock reading is not. *)
Theorem C8_Add_additive (now : Time) (s : NodeControls) (ids : list string) :
  nc_Controls s ⊆ nc_Controls (NodeControls_Add now s ids) /\
  (forall id, id ∈ ids -> id ∈ nc_Controls (NodeControls_Add now s ids)) /\
  (forall id, id ∈ nc_Controls (NodeControls_Add now s ids) <->
     id ∈ nc_Controls s \/ id ∈ ids) /\
  nc_Timestamp (NodeControls_Add now s ids) = now /\
  (Before now (nc_Timestamp s) = false ->
     Before (nc_Timestamp (NodeControls_Add now s ids)) (nc_Timestamp s)
       = false) /\
  (Before (nc_Timestamp s) now = true ->
     Before (nc_Timestamp s) (nc_Timestamp (NodeControls_Add now s ids))
       = true).
Proof.
  unfold NodeControls_Add, StringSet_Add; simpl.
  split; [set_solver |].
  split; [set_solver |].
  split; [set_solver |].
  split; [reflexivity |].
  split; trivial.
Qed.

Lemma C8_Add_additive_witness :
  "pause" ∈ nc_Controls (NodeControls_Add (mkTime 300 0) snapPause ["kill"]) /\
  "kill" ∈ nc_Controls (NodeControls_Add (mkTime 300 0) snapPause ["kill"]) /\
  Before (nc_Timestamp snapPause)
         (nc_Timestamp (NodeControls_Add (mkTime 300 0) snapPause ["kill"]))
    = true.
Proof.
  split; [| split].
  - apply (proj1 (C8_Add_additive (mkTime 300 0) snapPause ["kill"])).
    simpl. set_solver.
  - apply (C8_Add_additive (mkTime 300 0) snapPause ["kill"]).
    set_solver.
  - apply (C8_Add_additive (mkTime 300 0) snapPause ["kill"]).
    reflexivity.
Defined.

(* ===================================================================== *)
(** ** Controls: Copy and Merge on the store *)
(* ===================================================================== *)

Section Catalog.

Implicit Types h : Store.
Implicit Types m X : gmap string Control.
Implicit Types order : list (string * Control).

(** Assigning the entries of a list with distinct keys, one after the
    other, is the left-biased union with the map they form. *)
Lemma foldl_insert_union order X :
  NoDup order.*1 ->
  foldl (fun m kv => <[kv.1 := kv.2]> m) X order
    = (list_to_map order : gmap string Control) ∪ X.
Proof.
  revert X. induction order as [| [k v] order IH]; intros X Hnd; simpl.
  - by rewrite (left_id_L ∅ (∪)).
  - apply NoDup_cons in Hnd as [Hk Hnd].
    rewrite IH by done.
    rewrite <- insert_union_l.
    rewrite <- insert_union_r; [done |].
    by apply not_elem_of_list_to_map_1.
Qed.

Lemma assign_lookup h l k v :
  assign h l k v !! l = Some (<[k := v]> (default ∅ (h !! l))).
Proof. unfold assign. by rewrite lookup_insert_eq. Qed.

(** The loop writes to the map object at [result] only. *)
Lemma rangeAssign_store order h result X :
  h !! result = Some X ->
  rangeAssign order h result
    = <[result := foldl (fun m kv => <[kv.1 := kv.2]> m) X order]> h.
Proof.
  unfold rangeAssign. revert h X.
  induction order as [| [k v] order IH]; intros h X Hl; simpl.
  - by rewrite insert_id.
  - rewrite (IH _ (<[k := v]> X)).
    + unfold assign. by rewrite insert_insert_eq.
    + rewrite assign_lookup. by rewrite Hl.
Qed.

(** Whatever order the iteration takes, the loop ends with the entries of
    [m] laid over what [result] held. *)
Lemma rangeAssign_any_order order m h result X :
  order ≡ₚ map_to_list m ->
  h !! result = Some X ->
  rangeAssign order h result = <[result := m ∪ X]> h.
Proof.
  intros Hp Hl. rewrite (rangeAssign_store _ _ _ X Hl).
  assert (Hnd : NoDup order.*1).
  { rewrite Hp. apply NoDup_fst_map_to_list. }
  rewrite foldl_insert_union by done.
  rewrite (list_to_map_proper order (map_to_list m) Hnd Hp).
  by rewrite list_to_map_to_list.
Qed.

Lemma fresh_not_live h : h !! fresh (dom h) = None.
Proof. apply not_elem_of_dom. apply is_fresh. Qed.

Lemma entries_insert_live h cs l X :
  live h cs -> h !! l = None -> entries (<[l := X]> h) cs = entries h cs.
Proof.
  destruct cs as [l' |]; simpl; [| done].
  intros Hlive Hl. rewrite lookup_insert_ne; [done |].
  intros ->. apply elem_of_dom in Hlive as [? ?]. congruence.
Qed.

(** [Copy] allocates one map object and fills it with the receiver's
    entries. *)
Lemma Controls_Copy_eq h cs :
  live h cs ->
  Controls_Copy h cs
    = (<[fresh (dom h) := entries h cs]> h, Some (fresh (dom h))).
Proof.
  intros Hlive. unfold Controls_Copy, newMap.
  pose proof (fresh_not_live h) as Hf.
  rewrite (rangeAssign_any_order _ (entries (<[fresh (dom h) := ∅]> h) cs)
             _ _ ∅); [| done | by rewrite lookup_insert_eq].
  rewrite insert_insert_eq, (right_id_L ∅ (∪)).
  by rewrite entries_insert_live.
Qed.

(** [Merge] allocates one map object; it holds the entries of [other] laid
    over those of the receiver. *)
Lemma Controls_Merge_eq h cs other :
  live h cs -> live h other ->
  Controls_Merge h cs other
    = (<[fresh (dom h) := entries h other ∪ entries h cs]> h,
       Some (fresh (dom h))).
Proof.
  intros Hcs Hother. unfold Controls_Merge.
  rewrite Controls_Copy_eq by done. lazy beta iota.
  pose proof (fresh_not_live h) as Hf.
  set (h1 := <[fresh (dom h) := entries h cs]> h).
  rewrite (rangeAssign_any_order _ (entries h1 other) _ _ (entries h cs));
    [| done | by apply lookup_insert_eq].
  unfold h1. rewrite insert_insert_eq.
  by rewrite entries_insert_live.
Qed.

End Catalog.


Lemma storeAB_live :
  live storeAB (Some 1%positive) /\ live storeAB (Some 2%positive).
Proof. split; simpl; apply elem_of_dom; by eexists. Qed.


(* ===================================================================== *)
(** ** The decoder: stream discipline and termination *)
(* ===================================================================== *)

Lemma bind_Ok {A B} (c : Dec A) (k : A -> Dec B) ts a ts' :
  c ts = Ok (a, ts') -> bind c k ts = k a ts'.
Proof. unfold bind. by intros ->. Qed.

Lemma bind_assoc {A B C} (c : Dec A) (f : A -> Dec B) (g : B -> Dec C) ts :
  bind (bind c f) g ts = bind c (fun a => bind (f a) g) ts.
Proof. unfold bind. destruct (c ts) as [[a ts'] | |]; reflexivity. Qed.

Lemma tame_ret {A} (a : A) : tame (ret a).
Proof. intros ts. simpl. lia. Qed.

Lemma tame_panic {A} msg : tame (@panic A msg).
Proof. intros ts. exact I. Qed.

Lemma tame_bind {A B} (c : Dec A) (k : A -> Dec B) :
  tame c -> (forall a, tame (k a)) -> tame (bind c k).
Proof.
  intros Hc Hk ts. unfold bind. specialize (Hc ts).
  destruct (c ts) as [[a ts'] | |]; [| done | done].
  specialize (Hk a ts'). destruct (k a ts') as [[b ts''] | |]; [lia | done | done].
Qed.

Ltac tame_prim :=
  let ts := fresh "ts" in
  intros ts; destruct ts as [| [] ts]; simpl; try exact I; lia.

Lemma tame_TryDecodeAsNil : tame TryDecodeAsNil.
Proof. tame_prim. Qed.

Lemma tame_ReadMapStart : tame ReadMapStart.
Proof. tame_prim. Qed.

Lemma tame_CheckBreak : tame CheckBreak.
Proof. tame_prim. Qed.

Lemma tame_DecodeBytes : tame DecodeBytes.
Proof. tame_prim. Qed.

Lemma tame_DecodeString : tame DecodeString.
Proof. tame_prim. Qed.

Lemma tame_decodeStrings n : tame (decodeStrings n).
Proof.
  induction n as [| n IH]; simpl; [apply tame_ret |].
  apply tame_bind; [apply tame_DecodeString |]. intros s.
  apply tame_bind; [exact IH |]. intros l. apply tame_ret.
Qed.

Lemma tame_StringSet_CodecDecodeSelf s : tame (StringSet_CodecDecodeSelf s).
Proof.
  intros ts. unfold StringSet_CodecDecodeSelf.
  destruct ts as [| [] ts]; try exact I.
  pose proof (tame_bind (decodeStrings n)
                (fun l => ret (list_to_set l : StringSet))
                (tame_decodeStrings n) (fun l => tame_ret _) ts) as H.
  destruct (bind _ _ ts) as [[x ts'] | |]; simpl in *; [lia | done | done].
Qed.

(** Reading the key takes at least one item off the stream. *)
Lemma decodeKey_shrinks ts :
  match decodeKey ts with
  | Ok (_, ts') => (List.length ts' < List.length ts)%nat
  | Panic _ => True
  | OutOfFuel => False
  end.
Proof.
  unfold decodeKey, bind.
  destruct ts as [| [] ts]; simpl; try exact I.
  destruct (String.eqb s EmptyString); simpl; [exact I | lia].
Qed.

Section DecoderProps.

Variable parseTime : string -> Time.

Lemma tame_decodeField k nc : tame (decodeField parseTime k nc).
Proof.
  unfold decodeField.
  destruct (String.eqb k "timestamp").
  { apply tame_bind; [apply tame_DecodeString |]. intros s. apply tame_ret. }
  destruct (String.eqb k "controls"); [| apply tame_ret].
  apply tame_bind; [apply tame_TryDecodeAsNil |].
  intros [|]; [apply tame_ret |].
  apply tame_bind; [apply tame_StringSet_CodecDecodeSelf |].
  intros cs. apply tame_ret.
Qed.

(** With more fuel than items in the stream the loop ends by itself. *)
Lemma decodeLoop_fuel fuel length i nc ts :
  (List.length ts < fuel)%nat ->
  decodeLoop parseTime fuel length i nc ts <> OutOfFuel.
Proof.
  revert i nc ts. induction fuel as [| fuel IH]; intros i nc ts Hlen; [lia |].
  simpl. destruct ((length <? 0) || (i <? length)); [| done].
  unfold bind at 1.
  assert (Hbrk :
    match (if length <? 0 then CheckBreak else ret false) ts with
    | Ok (true, _) => True
    | Ok (false, ts') => ts' = ts
    | Panic _ => True
    | OutOfFuel => False
    end).
  { destruct (length <? 0); [| done].
    destruct ts as [| [] ts]; simpl; done. }
  destruct ((if length <? 0 then CheckBreak else ret false) ts)
    as [[[|] ts0] | |]; [done | | done | done].
  subst ts0. unfold bind at 1.
  pose proof (decodeKey_shrinks ts) as Hk.
  destruct (decodeKey ts) as [[k ts1] | |]; [| done | done].
  unfold bind at 1.
  pose proof (tame_decodeField k nc ts1) as Hf.
  destruct (decodeField parseTime k nc ts1) as [[nc' ts2] | |];
    [| done | done].
  apply IH. lia.
Qed.

Lemma CodecDecodeSelf_nil nc ts :
  CodecDecodeSelf parseTime nc (TNil :: ts) = Ok (nc, ts).
Proof. reflexivity. Qed.

Lemma CodecDecodeSelf_map nc n ts :
  CodecDecodeSelf parseTime nc (TMapStart n :: ts)
    = decodeLoop parseTime (S (List.length ts)) (Z.of_nat n) 0 nc ts.
Proof. reflexivity. Qed.

Lemma CodecDecodeSelf_map_indef nc ts :
  CodecDecodeSelf parseTime nc (TMapIndef :: ts)
    = decodeLoop parseTime (S (List.length ts)) (-1) 0 nc ts.
Proof. reflexivity. Qed.

(** The decoder returns or panics on every stream. *)
Theorem CodecDecodeSelf_total nc ts :
  CodecDecodeSelf parseTime nc ts <> OutOfFuel.
Proof.
  destruct ts as [| t ts]; [discriminate |].
  destruct t; try discriminate.
  - rewrite CodecDecodeSelf_map. apply decodeLoop_fuel. lia.
  - rewrite CodecDecodeSelf_map_indef. apply decodeLoop_fuel. lia.
Qed.

End DecoderProps.

(* ===================================================================== *)
(** ** The decoder on payloads of known entries *)
(* ===================================================================== *)

Lemma decodeStrings_map ids rest :
  decodeStrings (List.length ids) (map TStr ids ++ rest) = Ok (ids, rest).
Proof.
  induction ids as [| s ids IH]; [reflexivity |].
  change (bind (decodeStrings (List.length ids)) (fun l => ret (s :: l))
            (map TStr ids ++ rest) = Ok (s :: ids, rest)).
  by rewrite (bind_Ok _ _ _ _ _ IH).
Qed.

Lemma fieldsTokens_cons f fs rest :
  fieldsTokens (f :: fs) ++ rest = fieldTokens f ++ (fieldsTokens fs ++ rest).
Proof. unfold fieldsTokens. simpl. by rewrite <- app_assoc. Qed.

Lemma fieldsTokens_length fs :
  (List.length fs <= List.length (fieldsTokens fs))%nat.
Proof.
  induction fs as [| f fs IH]; [done |].
  unfold fieldsTokens in *. simpl. rewrite length_app.
  assert (1 <= List.length (fieldTokens f))%nat; [| lia].
  destruct f as [s | [ids |]]; simpl; lia.
Qed.

Section PayloadProps.

Variable parseTime : string -> Time.

Lemma decodeLoop_unfold fuel length i nc :
  decodeLoop parseTime (S fuel) length i nc =
    if (length <? 0) || (i <? length) then
      brk <- (if length <? 0 then CheckBreak else ret false) ;;
      if brk : bool then ret nc
      else
        k <- decodeKey ;;
        nc' <- decodeField parseTime k nc ;;
        decodeLoop parseTime fuel length (i + 1) nc'
    else ret nc.
Proof. reflexivity. Qed.

(** A key the switch does not know: nothing is read, nothing is stored. *)
Lemma decodeField_unknown k nc ts :
  k <> "timestamp" -> k <> "controls" ->
  decodeField parseTime k nc ts = Ok (nc, ts).
Proof.
  intros H1 H2. unfold decodeField.
  apply String.eqb_neq in H1. apply String.eqb_neq in H2.
  by rewrite H1, H2.
Qed.

(** One iteration on a known entry: key and value are read, the field is
    stored. *)
Lemma decodeEntry_field f nc rest :
  (k <- decodeKey ;; decodeField parseTime k nc) (fieldTokens f ++ rest)
    = Ok (applyField parseTime nc f, rest).
Proof.
  destruct f as [s | [ids |]]; [reflexivity | | reflexivity].
  change (bind (bind (decodeStrings (List.length ids))
                  (fun l => ret (list_to_set l : StringSet)))
            (fun cs => ret {| nc_Timestamp := nc_Timestamp nc;
                              nc_Controls := cs |})
            (map TStr ids ++ rest)
          = Ok (applyField parseTime nc (FControls (Some ids)), rest)).
  rewrite bind_assoc, (bind_Ok _ _ _ _ _ (decodeStrings_map ids rest)).
  reflexivity.
Qed.

Lemma decodeLoop_fields fs :
  forall fuel i nc rest,
    (List.length fs < fuel)%nat -> 0 <= i ->
    decodeLoop parseTime fuel (i + Z.of_nat (List.length fs)) i nc
      (fieldsTokens fs ++ rest)
    = Ok (applyFields parseTime nc fs, rest).
Proof.
  induction fs as [| f fs IH]; intros fuel i nc rest Hfuel Hi;
    (destruct fuel as [| fuel]; [simpl in Hfuel; lia |]);
    rewrite decodeLoop_unfold.
  - set (L := i + Z.of_nat (List.length (@nil wireField))).
    assert (HL1 : (L <? 0) = false)
      by (apply Z.ltb_ge; unfold L; simpl List.length; lia).
    assert (HL2 : (i <? L) = false)
      by (apply Z.ltb_ge; unfold L; simpl List.length; lia).
    rewrite HL1, HL2.
    reflexivity.
  - set (L := i + Z.of_nat (List.length (f :: fs))).
    assert (HL1 : (L <? 0) = false)
      by (apply Z.ltb_ge; unfold L; simpl List.length; lia).
    assert (HL2 : (i <? L) = true)
      by (apply Z.ltb_lt; unfold L; simpl List.length; lia).
    rewrite HL1, HL2.
    change (bind decodeKey
              (fun k => bind (decodeField parseTime k nc)
                 (fun nc' => decodeLoop parseTime fuel L (i + 1) nc'))
              (fieldsTokens (f :: fs) ++ rest)
            = Ok (applyFields parseTime nc (f :: fs), rest)).
    rewrite <- bind_assoc, fieldsTokens_cons.
    rewrite (bind_Ok _ _ _ _ _ (decodeEntry_field f nc _)).
    replace L with ((i + 1) + Z.of_nat (List.length fs))
      by (unfold L; simpl List.length; lia).
    apply IH; [simpl in Hfuel; lia | lia].
Qed.

Lemma decodeLoop_fields_indef fs :
  forall fuel i nc rest,
    (List.length fs < fuel)%nat ->
    decodeLoop parseTime fuel (-1) i nc (fieldsTokens fs ++ TBreak :: rest)
    = Ok (applyFields parseTime nc fs, rest).
Proof.
  induction fs as [| f fs IH]; intros fuel i nc rest Hfuel;
    (destruct fuel as [| fuel]; [simpl in Hfuel; lia |]);
    rewrite decodeLoop_unfold.
  - reflexivity.
  - change (bind CheckBreak
              (fun brk : bool => if brk then ret nc else
                 bind decodeKey
                   (fun k => bind (decodeField parseTime k nc)
                      (fun nc' => decodeLoop parseTime fuel (-1) (i + 1) nc')))
              (fieldsTokens (f :: fs) ++ TBreak :: rest)
            = Ok (applyFields parseTime nc (f :: fs), rest)).
    rewrite fieldsTokens_cons.
    assert (Hb : CheckBreak (fieldTokens f ++ fieldsTokens fs ++ TBreak :: rest)
                 = Ok (false, fieldTokens f ++ fieldsTokens fs ++ TBreak :: rest)).
    { by destruct f as [s | [ids |]]. }
    rewrite (bind_Ok _ _ _ _ _ Hb).
    rewrite <- bind_assoc.
    rewrite (bind_Ok _ _ _ _ _ (decodeEntry_field f nc _)).
    apply IH. simpl in Hfuel. lia.
Qed.

(** Decoding a map of known entries: every entry is applied to the
    receiver, in wire order, and exactly the payload is consumed. *)
Theorem CodecDecodeSelf_payload nc fs rest :
  CodecDecodeSelf parseTime nc (payloadTokens fs ++ rest)
    = Ok (applyFields parseTime nc fs, rest).
Proof.
  unfold payloadTokens. rewrite <- app_comm_cons, CodecDecodeSelf_map.
  rewrite <- (Z.add_0_l (Z.of_nat (List.length fs))).
  apply decodeLoop_fields; [| lia].
  rewrite length_app. pose proof (fieldsTokens_length fs). lia.
Qed.

Theorem CodecDecodeSelf_payload_indef nc fs rest :
  CodecDecodeSelf parseTime nc (payloadTokensIndef fs ++ rest)
    = Ok (applyFields parseTime nc fs, rest).
Proof.
  unfold payloadTokensIndef.
  rewrite <- app_comm_cons, CodecDecodeSelf_map_indef.
  rewrite <- app_assoc. change ([TBreak] ++ rest) with (TBreak :: rest).
  apply decodeLoop_fields_indef.
  rewrite length_app. pose proof (fieldsTokens_length fs). lia.
Qed.

Lemma applyFields_no_timestamp fs nc :
  hasTimestamp fs = false ->
  nc_Timestamp (applyFields parseTime nc fs) = nc_Timestamp nc.
Proof.
  revert nc. induction fs as [| f fs IH]; intros nc H; [done |].
  destruct f as [s | [ids |]]; simpl in H; [done | |];
    unfold applyFields in *; simpl; by rewrite IH.
Qed.

Lemma applyFields_no_controls fs nc :
  hasControls fs = false ->
  nc_Controls (applyFields parseTime nc fs) = nc_Controls nc.
Proof.
  revert nc. induction fs as [| f fs IH]; intros nc H; [done |].
  destruct f as [s | ids]; simpl in H; [| done].
  unfold applyFields in *; simpl; by rewrite IH.
Qed.

(** What the encoder writes, read back into a receiver: a field that was
    written overwrites, a field that was omitted leaves the receiver's. *)
Lemma applyFields_wireFields nc s (cs : StringSet) :
  applyFields parseTime nc (wireFields {| w_Timestamp := s; w_Controls := cs |})
    = {| nc_Timestamp := if String.eqb s EmptyString then nc_Timestamp nc
                         else parseTime s;
         nc_Controls := if decide (cs = ∅) then nc_Controls nc else cs |}.
Proof.
  unfold wireFields; simpl.
  assert (Hcs : match elements cs with
                | [] => cs = ∅
                | ids => cs <> ∅ /\ list_to_set ids = cs
                end).
  { destruct (elements cs) as [| id ids] eqn:E.
    - apply leibniz_equiv. by apply elements_empty_inv.
    - split.
      + intros ->. by rewrite elements_empty in E.
      + rewrite <- E. apply list_to_set_elements_L. }
  destruct (String.eqb s EmptyString), (elements cs) as [| id ids]; simpl;
    unfold applyFields; simpl.
  - subst cs. rewrite decide_True by done. by destruct nc.
  - destruct Hcs as [Hne Hl]. rewrite decide_False by done.
    f_equal. exact Hl.
  - subst cs. by rewrite decide_True.
  - destruct Hcs as [Hne Hl]. rewrite decide_False by done.
    f_equal. exact Hl.
Qed.

End PayloadProps.

(* ===================================================================== *)
(** ** The encoder *)
(* ===================================================================== *)


(* ===================================================================== *)
(** ** The codec: the properties of the specification *)
(* ===================================================================== *)



(** Decoding what the encoder wrote, into a receiver [nc]: a field the
    encoder wrote comes back through [parseTime] or as the same set; a
    field it omitted is the receiver's. *)
Lemma CodecDecodeSelf_CodecEncodeSelf (renderTime : Time -> string)
    (parseTime : string -> Time) (nc x : NodeControls) (rest : list token) :
  CodecDecodeSelf parseTime nc (CodecEncodeSelf renderTime x ++ rest)
    = Ok ({| nc_Timestamp :=
               if String.eqb (renderTime (nc_Timestamp x)) EmptyString
               then nc_Timestamp nc
               else parseTime (renderTime (nc_Timestamp x));
             nc_Controls :=
               if decide (nc_Controls x = ∅) then nc_Controls nc
               else nc_Controls x |}, rest).
Proof.
  unfold CodecEncodeSelf, wireOf.
  by rewrite CodecDecodeSelf_payload, applyFields_wireFields.
Qed.

(** C4. Round trip.  For a snapshot [x] whose timestamp is not the zero
    time, with a render function that gives the empty string for the zero
    time only and a parse function that inverts it at [x]'s timestamp:
    decoding, into a fresh snapshot, what [CodecEncodeSelf] wrote for [x]
    returns without error, consumes exactly what was written, and yields
    [x], timestamp and control set. *)
Theorem C4_encode_decode_roundtrip (renderTime : Time -> string)
    (parseTime : string -> Time) (x : NodeControls) (rest : list token) :
  nc_Timestamp x <> zeroTime ->
  (renderTime (nc_Timestamp x) = EmptyString -> nc_Timestamp x = zeroTime) ->
  parseTime (renderTime (nc_Timestamp x)) = nc_Timestamp x ->
  CodecDecodeSelf parseTime MakeNodeControls
    (CodecEncodeSelf renderTime x ++ rest) = Ok (x, rest).
Proof.
  intros Hdef Hrender Hparse.
  rewrite CodecDecodeSelf_CodecEncodeSelf.
  destruct (String.eqb (renderTime (nc_Timestamp x)) EmptyString) eqn:E.
  { apply String.eqb_eq in E. destruct Hdef. by apply Hrender. }
  rewrite Hparse. destruct x as [t cs]; simpl.
  destruct (decide (cs = ∅)) as [-> |]; reflexivity.
Qed.

Lemma C4_encode_decode_roundtrip_witness :
  CodecDecodeSelf demoParse MakeNodeControls
    (CodecEncodeSelf demoRender snapPause ++ [TStr "next"])
  = Ok (snapPause, [TStr "next"]).
Proof.
  apply (C4_encode_decode_roundtrip demoRender demoParse snapPause).
  - discriminate.
  - discriminate.
  - reflexivity.
Defined.

(** C5. Decoding into a fresh snapshot ([MakeNodeControls()]) a map of
    known entries returns without error and consumes the map; without a
    [timestamp] entry the timestamp is the zero time, without a [controls]
    entry the control set is empty; a map holding [controls] alone yields
    that set with the zero time; the nil item yields [MakeNodeControls()].
    The map may be written with definite or indefinite length. *)
Theorem C5_decode_absent_data (parseTime : string -> Time)
    (fs : list wireField) (rest : list token) :
  (exists nc,
     CodecDecodeSelf parseTime MakeNodeControls (payloadTokens fs ++ rest)
       = Ok (nc, rest) /\
     CodecDecodeSelf parseTime MakeNodeControls
       (payloadTokensIndef fs ++ rest) = Ok (nc, rest) /\
     (hasTimestamp fs = false -> nc_Timestamp nc = zeroTime) /\
     (hasControls fs = false -> nc_Controls nc = ∅) /\
     (forall ids, fs = [FControls (Some ids)] ->
        nc = {| nc_Timestamp := zeroTime; nc_Controls := list_to_set ids |}) /\
     (fs = [] -> nc = MakeNodeControls)) /\
  CodecDecodeSelf parseTime MakeNodeControls (TNil :: rest)
    = Ok (MakeNodeControls, rest).
Proof.
  split; [| reflexivity].
  exists (applyFields parseTime MakeNodeControls fs).
  split; [apply CodecDecodeSelf_payload |].
  split; [apply CodecDecodeSelf_payload_indef |].
  split; [apply applyFields_no_timestamp |].
  split; [apply applyFields_no_controls |].
  split; by intros; subst fs.
Qed.

Lemma C5_decode_absent_data_witness :
  (exists nc,
     CodecDecodeSelf demoParse MakeNodeControls
       [TMapStart 1; TStr "controls"; TArrayStart 2;
        TStr "pause"; TStr "resume"] = Ok (nc, []) /\
     nc_Timestamp nc = zeroTime /\
     nc_Controls nc = list_to_set ["pause"; "resume"]) /\
  (exists nc,
     CodecDecodeSelf demoParse MakeNodeControls
       [TMapStart 1; TStr "timestamp"; TStr "0001-01-01T00:01:40Z"]
       = Ok (nc, []) /\
     nc_Controls nc = ∅).
Proof.
  split.
  - destruct (C5_decode_absent_data demoParse
                [FControls (Some ["pause"; "resume"])] [])
      as [(nc & Hd & _ & Ht & _ & Hc & _) _].
    exists nc. split; [exact Hd |].
    split; [apply Ht; reflexivity |].
    rewrite (Hc _ eq_refl). reflexivity.
  - destruct (C5_decode_absent_data demoParse
                [FTimestamp "0001-01-01T00:01:40Z"] [])
      as [(nc & Hd & _ & _ & Hc & _) _].
    exists nc. split; [exact Hd | apply Hc; reflexivity].
Defined.

(** C10. [CodecDecodeSelf] stores into the receiver without resetting it:
    on a map of known entries, a field whose key is absent keeps the value
    the receiver held before the call, whatever it was; on the nil item the
    receiver is left as it was. *)
Theorem C10_decode_in_place (parseTime : string -> Time)
    (nc0 : NodeControls) (fs : list wireField) (rest : list token) :
  (exists nc,
     CodecDecodeSelf parseTime nc0 (payloadTokens fs ++ rest)
       = Ok (nc, rest) /\
     CodecDecodeSelf parseTime nc0 (payloadTokensIndef fs ++ rest)
       = Ok (nc, rest) /\
     (hasTimestamp fs = false -> nc_Timestamp nc = nc_Timestamp nc0) /\
     (hasControls fs = false -> nc_Controls nc = nc_Controls nc0) /\
     (fs = [] -> nc = nc0)) /\
  CodecDecodeSelf parseTime nc0 (TNil :: rest) = Ok (nc0, rest).
Proof.
  split; [| reflexivity].
  exists (applyFields parseTime nc0 fs).
  split; [apply CodecDecodeSelf_payload |].
  split; [apply CodecDecodeSelf_payload_indef |].
  split; [apply applyFields_no_timestamp |].
  split; [apply applyFields_no_controls |].
  by intros ->.
Qed.

Lemma C10_decode_in_place_witness :
  (exists nc,
     CodecDecodeSelf demoParse snapRestart
       [TMapStart 1; TStr "controls"; TArrayStart 1; TStr "pause"]
       = Ok (nc, []) /\
     nc_Timestamp nc = mkTime 100 0) /\
  (exists nc,
     CodecDecodeSelf demoParse snapRestart
       [TMapStart 1; TStr "timestamp"; TStr "0001-01-01T00:03:20Z"]
       = Ok (nc, []) /\
     nc_Controls nc = {["restart"]}) /\
  CodecDecodeSelf demoParse snapRestart [TNil] = Ok (snapRestart, []).
Proof.
  split; [| split].
  - destruct (C10_decode_in_place demoParse snapRestart
                [FControls (Some ["pause"])] [])
      as [(nc & Hd & _ & Ht & _) _].
    exists nc. split; [exact Hd | rewrite Ht; reflexivity].
  - destruct (C10_decode_in_place demoParse snapRestart
                [FTimestamp "0001-01-01T00:03:20Z"] [])
      as [(nc & Hd & _ & _ & Hc & _) _].
    exists nc. split; [exact Hd | rewrite Hc; reflexivity].
  - apply (C10_decode_in_place demoParse snapRestart [] []).
Defined.

(** C2, on the code.  A map with an entry the switch does not know,
    [{"extra": "x", "timestamp": "T"}]: the key [extra] is read and its
    value is not; the next iteration reads that value as a key; the loop
    stops after two iterations with the [timestamp] entry unread and the
    receiver untouched.  The same map without the unknown entry stores
    [parseTime "T"].  With an integer as the unknown entry's value, reading
    it as a key panics. *)
Theorem C2_unknown_field_not_skipped (parseTime : string -> Time) :
  CodecDecodeSelf parseTime MakeNodeControls
    [TMapStart 2; TStr "extra"; TStr "x"; TStr "timestamp"; TStr "T"]
    = Ok (MakeNodeControls, [TStr "timestamp"; TStr "T"]) /\
  CodecDecodeSelf parseTime MakeNodeControls
    [TMapStart 1; TStr "timestamp"; TStr "T"]
    = Ok ({| nc_Timestamp := parseTime "T"; nc_Controls := ∅ |}, []) /\
  CodecDecodeSelf parseTime MakeNodeControls
    [TMapStart 2; TStr "extra"; TInt 5; TStr "timestamp"; TStr "T"]
    = Panic "DecodeBytes: not a string".
Proof. repeat split; reflexivity. Qed.

(** With the demonstration parser the two results of C2 differ. *)
Lemma unknown_field_changes_result :
  CodecDecodeSelf demoParse MakeNodeControls
    [TMapStart 2; TStr "extra"; TStr "x";
     TStr "timestamp"; TStr "0001-01-01T00:01:40Z"]
  <> CodecDecodeSelf demoParse MakeNodeControls
       [TMapStart 1; TStr "timestamp"; TStr "0001-01-01T00:01:40Z"].
Proof. discriminate. Qed.

(* ===================================================================== *)
(** ** Controls: Copy, AddControl and AddControls *)
(* ===================================================================== *)

Section CatalogMore.

Implicit Types h : Store.
Implicit Types m X : gmap string Control.
Implicit Types controls : list Control.


(** On a map object the loop of [AddControls] is a sequence of inserts. *)
Lemma Controls_AddControls_store controls :
  forall h l X,
    h !! l = Some X ->
    Controls_AddControls h (Some l) controls
      = Ok (<[l := foldl (fun m c => <[ID c := c]> m) X controls]> h).
Proof.
  induction controls as [| c controls IH]; intros h l X Hl; simpl.
  - by rewrite insert_id.
  - rewrite (IH _ _ (<[ID c := c]> X)).
    + unfold assign. by rewrite insert_insert_eq.
    + rewrite assign_lookup. by rewrite Hl.
Qed.

Lemma foldl_insert_ID_lookup controls X k :
  foldl (fun m c => <[ID c := c]> m) X controls !! k
    = match lastWithID k controls with
      | Some c => Some c
      | None => X !! k
      end.
Proof.
  unfold lastWithID.
  induction controls as [| c controls IH] using rev_ind; [done |].
  rewrite foldl_app, filter_app. simpl.
  rewrite filter_cons, filter_nil.
  destruct (decide (ID c = k)) as [E | E].
  - rewrite last_snoc, E. by rewrite lookup_insert_eq.
  - rewrite app_nil_r, lookup_insert_ne by done. exact IH.
Qed.

Lemma foldl_insert_ID_keyed controls X :
  keyedByID X -> keyedByID (foldl (fun m c => <[ID c := c]> m) X controls).
Proof.
  intros HX k c. rewrite foldl_insert_ID_lookup. unfold lastWithID.
  destruct (last (filter (fun c => ID c = k) controls)) as [c' |] eqn:E.
  - intros [= ->]. apply last_Some_elem_of in E.
    by apply list_elem_of_filter in E as [? _].
  - apply HX.
Qed.

Lemma keyedByID_union m X : keyedByID m -> keyedByID X -> keyedByID (m ∪ X).
Proof.
  intros Hm HX k c Hk. apply lookup_union_Some_raw in Hk as [Hk | [_ Hk]].
  - by apply Hm.
  - by apply HX.
Qed.

End CatalogMore.



(** X2. A copy does not share storage with its origin: after
    [c2 := cs.Copy(); c2.AddControl(c)] the copy holds [c] under [c.ID]
    and the receiver's entries are what they were. *)
Theorem X2_Copy_then_AddControl_leaves_origin (h : Store) (cs : Controls)
    (c : Control) :
  live h cs ->
  exists h',
    Controls_AddControl (Controls_Copy h cs).1 (Controls_Copy h cs).2 c
      = Ok h' /\
    entries h' (Controls_Copy h cs).2 = <[ID c := c]> (entries h cs) /\
    entries h' cs = entries h cs.
Proof.
  intros Hlive. rewrite Controls_Copy_eq by done. simpl.
  pose proof (fresh_not_live h) as Hf.
  eexists. split; [reflexivity |].
  unfold assign. rewrite lookup_insert_eq, insert_insert_eq. simpl.
  split; [by rewrite lookup_insert_eq |].
  by apply entries_insert_live.
Qed.

Lemma X2_Copy_then_AddControl_leaves_origin_witness :
  exists h',
    Controls_AddControl (Controls_Copy storeAB (Some 1%positive)).1
      (Controls_Copy storeAB (Some 1%positive)).2 ctrlB = Ok h' /\
    entries h' (Controls_Copy storeAB (Some 1%positive)).2 !! "c1"
      = Some ctrlB /\
    entries h' (Some 1%positive) !! "c1" = Some ctrlA.
Proof.
  destruct (X2_Copy_then_AddControl_leaves_origin storeAB (Some 1%positive)
              ctrlB (proj1 storeAB_live)) as (h' & Hok & Hcopy & Horig).
  exists h'. split; [exact Hok |]. split.
  - rewrite Hcopy. reflexivity.
  - rewrite Horig. reflexivity.
Defined.

(** X3. [AddControls] on a live map writes in place: it returns without
    panic, allocates nothing, leaves every other map object alone, and
    afterwards a key holds the last control of the sequence that carries
    it as [ID], or, when no control of the sequence does, what it held
    before. *)
Theorem X3_AddControls_last_wins_in_place (h : Store) (l : loc)
    (controls : list Control) :
  l ∈ dom h ->
  exists h',
    Controls_AddControls h (Some l) controls = Ok h' /\
    (forall k,
       entries h' (Some l) !! k
         = match lastWithID k controls with
           | Some c => Some c
           | None => entries h (Some l) !! k
           end) /\
    dom h' = dom h /\
    (forall l', l' <> l -> h' !! l' = h !! l').
Proof.
  intros Hl. apply elem_of_dom in Hl as [X HX].
  rewrite (Controls_AddControls_store controls h l X HX).
  eexists. split; [reflexivity |]. simpl.
  rewrite lookup_insert_eq, HX. simpl.
  split; [intros k; apply foldl_insert_ID_lookup |].
  split.
  - rewrite dom_insert_L. apply subseteq_union_1_L.
    apply singleton_subseteq_l. by apply elem_of_dom_2 in HX.
  - intros l' Hne. by rewrite lookup_insert_ne.
Qed.

Lemma X3_AddControls_last_wins_in_place_witness :
  exists h',
    Controls_AddControls storeAB (Some 1%positive) [ctrlA; ctrlB] = Ok h' /\
    entries h' (Some 1%positive) !! "c1" = Some ctrlB /\
    h' !! 2%positive = storeAB !! 2%positive.
Proof.
  destruct (X3_AddControls_last_wins_in_place storeAB 1%positive
              [ctrlA; ctrlB] (proj1 storeAB_live))
    as (h' & Hok & Hk & _ & Hother).
  exists h'. split; [exact Hok |]. split.
  - rewrite Hk. reflexivity.
  - apply Hother. discriminate.
Defined.

(** X5. [AddControls] keeps a catalog keyed by identifier: when every
    control of a live map sits under its own [ID] before the call, so it
    does after it. *)
Theorem X5_AddControls_keeps_keyedByID (h : Store) (l : loc)
    (controls : list Control) :
  l ∈ dom h ->
  keyedByID (entries h (Some l)) ->
  exists h',
    Controls_AddControls h (Some l) controls = Ok h' /\
    keyedByID (entries h' (Some l)).
Proof.
  intros Hl Hkeyed. apply elem_of_dom in Hl as [X HX].
  rewrite (Controls_AddControls_store controls h l X HX).
  eexists. split; [reflexivity |]. simpl in *.
  rewrite lookup_insert_eq. rewrite HX in Hkeyed. simpl in *.
  by apply foldl_insert_ID_keyed.
Qed.

Lemma storeAB_keyed : keyedByID (entries storeAB (Some 1%positive)).
Proof.
  intros k c. simpl. unfold storeAB.
  rewrite lookup_insert_ne by done. rewrite lookup_insert_eq. simpl.
  intros Hk. apply lookup_singleton_Some in Hk as [E1 E2].
  subst k c. reflexivity.
Qed.

Lemma X5_AddControls_keeps_keyedByID_witness :
  exists h',
    Controls_AddControls storeAB (Some 1%positive) [ctrlB] = Ok h' /\
    keyedByID (entries h' (Some 1%positive)).
Proof.
  exact (X5_AddControls_keeps_keyedByID storeAB 1%positive [ctrlB]
           (proj1 storeAB_live) storeAB_keyed).
Defined.

(** X6. [Merge] keeps catalogs keyed by identifier: when both operands
    are, so is the result. *)
Theorem X6_Merge_keeps_keyedByID (h : Store) (A B : Controls) :
  live h A -> live h B ->
  keyedByID (entries h A) -> keyedByID (entries h B) ->
  keyedByID (entries (Controls_Merge h A B).1 (Controls_Merge h A B).2).
Proof.
  intros HA HB HkA HkB. rewrite Controls_Merge_eq by done. simpl.
  rewrite lookup_insert_eq. simpl. by apply keyedByID_union.
Qed.

Lemma storeAB_keyed_B : keyedByID (entries storeAB (Some 2%positive)).
Proof.
  intros k c. simpl. unfold storeAB. rewrite lookup_insert_eq. simpl.
  intros Hk. apply lookup_singleton_Some in Hk as [E1 E2].
  subst k c. reflexivity.
Qed.

Lemma X6_Merge_keeps_keyedByID_witness :
  keyedByID
    (entries (Controls_Merge storeAB (Some 1%positive) (Some 2%positive)).1
             (Controls_Merge storeAB (Some 1%positive) (Some 2%positive)).2).
Proof.
  exact (X6_Merge_keeps_keyedByID storeAB (Some 1%positive) (Some 2%positive)
           (proj1 storeAB_live) (proj2 storeAB_live)
           storeAB_keyed storeAB_keyed_B).
Defined.

(* ===================================================================== *)
(** ** Controls: how merges compose *)
(* ===================================================================== *)

Lemma live_insert (h : Store) (cs : Controls) (l : loc)
    (X : gmap string Control) :
  live h cs -> live (<[l := X]> h) cs.
Proof.
  destruct cs as [l' |]; simpl; [| done].
  rewrite dom_insert_L. intros H. apply elem_of_union. by right.
Qed.

Lemma live_insert_same (h : Store) (l : loc) (X : gmap string Control) :
  live (<[l := X]> h) (Some l).
Proof.
  simpl. rewrite dom_insert_L. apply elem_of_union. left.
  by apply elem_of_singleton.
Qed.

(** The entries of the catalog [Merge] returns. *)
Lemma Controls_Merge_entries (h : Store) (A B : Controls) :
  live h A -> live h B ->
  entries (Controls_Merge h A B).1 (Controls_Merge h A B).2
    = entries h B ∪ entries h A.
Proof.
  intros HA HB. rewrite Controls_Merge_eq by done. simpl.
  by rewrite lookup_insert_eq.
Qed.

(** X7. Merging catalogs is associative on their entries:
    [A.Merge(B).Merge(C)] and [A.Merge(B.Merge(C))] hold the same entries
    (in two different new maps). *)
Theorem X7_catalog_Merge_assoc (h : Store) (A B C : Controls) :
  live h A -> live h B -> live h C ->
  entries
    (Controls_Merge (Controls_Merge h A B).1 (Controls_Merge h A B).2 C).1
    (Controls_Merge (Controls_Merge h A B).1 (Controls_Merge h A B).2 C).2
  = entries
      (Controls_Merge (Controls_Merge h B C).1 A (Controls_Merge h B C).2).1
      (Controls_Merge (Controls_Merge h B C).1 A (Controls_Merge h B C).2).2.
Proof.
  intros HA HB HC.
  pose proof (fresh_not_live h) as Hf.
  rewrite (Controls_Merge_eq h A B HA HB), (Controls_Merge_eq h B C HB HC).
  cbn [fst snd].
  rewrite !Controls_Merge_entries;
    try apply live_insert_same; try (by apply live_insert).
  cbn [entries]. rewrite !lookup_insert_eq. cbn [default from_option id].
  rewrite (entries_insert_live h C) by done.
  rewrite (entries_insert_live h A) by done.
  by rewrite (assoc_L (∪)).
Qed.

Lemma storeAB_live_nil : live storeAB None.
Proof. exact I. Qed.

Lemma X7_catalog_Merge_assoc_witness :
  entries
    (Controls_Merge
       (Controls_Merge storeAB (Some 1%positive) (Some 2%positive)).1
       (Controls_Merge storeAB (Some 1%positive) (Some 2%positive)).2
       None).1
    (Controls_Merge
       (Controls_Merge storeAB (Some 1%positive) (Some 2%positive)).1
       (Controls_Merge storeAB (Some 1%positive) (Some 2%positive)).2
       None).2
  = entries
      (Controls_Merge (Controls_Merge storeAB (Some 2%positive) None).1
         (Some 1%positive)
         (Controls_Merge storeAB (Some 2%positive) None).2).1
      (Controls_Merge (Controls_Merge storeAB (Some 2%positive) None).1
         (Some 1%positive)
         (Controls_Merge storeAB (Some 2%positive) None).2).2.
Proof.
  exact (X7_catalog_Merge_assoc storeAB (Some 1%positive) (Some 2%positive)
           None (proj1 storeAB_live) (proj2 storeAB_live) storeAB_live_nil).
Defined.

(** X8. Merging with the nil catalog, on either side, and merging a
    catalog with itself, all give a new map with the entries of the
    catalog: [Merge] then acts as [Copy]. *)
Theorem X8_catalog_Merge_nil_and_self (h : Store) (A : Controls) :
  live h A ->
  entries (Controls_Merge h A None).1 (Controls_Merge h A None).2
    = entries h A /\
  entries (Controls_Merge h None A).1 (Controls_Merge h None A).2
    = entries h A /\
  entries (Controls_Merge h A A).1 (Controls_Merge h A A).2
    = entries h A /\
  (Controls_Merge h A None).2 <> A.
Proof.
  intros HA.
  assert (HN : live h None) by exact I.
  split; [rewrite Controls_Merge_entries by done; cbn [entries];
          by rewrite (left_id_L ∅ (∪)) |].
  split; [rewrite Controls_Merge_entries by done; cbn [entries];
          by rewrite (right_id_L ∅ (∪)) |].
  split; [rewrite Controls_Merge_entries by done;
          by rewrite (idemp_L (∪)) |].
  rewrite Controls_Merge_eq by done. cbn [snd].
  destruct A as [l |]; [| done]. simpl in HA.
  intros [= E]. rewrite <- E in HA. by apply is_fresh in HA.
Qed.

Lemma X8_catalog_Merge_nil_and_self_witness :
  entries (Controls_Merge storeAB (Some 1%positive) None).1
          (Controls_Merge storeAB (Some 1%positive) None).2 !! "c1"
    = Some ctrlA.
Proof.
  rewrite (proj1 (X8_catalog_Merge_nil_and_self storeAB (Some 1%positive)
                    (proj1 storeAB_live))).
  reflexivity.
Defined.

(* ===================================================================== *)
(** ** NodeControls: the algebra of Merge *)
(* ===================================================================== *)

(** X10. [Merge] selects: the result is one of the two operands, no
    operand has a timestamp after the result's, and the control set of the
    result is that of the operand selected, never a mix. *)
Theorem X10_Merge_selects_latest (a b : NodeControls) :
  (NodeControls_Merge a b = a \/ NodeControls_Merge a b = b) /\
  Before (nc_Timestamp (NodeControls_Merge a b)) (nc_Timestamp a) = false /\
  Before (nc_Timestamp (NodeControls_Merge a b)) (nc_Timestamp b) = false.
Proof.
  unfold NodeControls_Merge.
  destruct (Before (nc_Timestamp a) (nc_Timestamp b)) eqn:E.
  - split; [by right |]. split; [by apply Before_asym | apply Before_irrefl].
  - split; [by left |]. split; [apply Before_irrefl |].
    destruct (Before (nc_Timestamp a) (nc_Timestamp b)); done.
Qed.

(** X11. The unset snapshot is neutral for snapshots stamped after the
    zero time, on both sides; against a snapshot stamped with the zero
    time itself the receiver wins, so [MakeNodeControls().Merge(a)] drops
    the controls of such an [a]. *)
Theorem X11_Merge_unset_snapshot (a : NodeControls) :
  (Before zeroTime (nc_Timestamp a) = true ->
     NodeControls_Merge MakeNodeControls a = a /\
     NodeControls_Merge a MakeNodeControls = a) /\
  (nc_Timestamp a = zeroTime ->
     NodeControls_Merge MakeNodeControls a = MakeNodeControls /\
     NodeControls_Merge a MakeNodeControls = a).
Proof.
  split.
  - intros H. split.
    + by apply Merge_before.
    + apply Merge_not_before. by apply Before_asym.
  - intros E. split.
    + apply Merge_tie. by rewrite E.
    + apply Merge_tie. by rewrite E.
Qed.

Lemma X11_Merge_unset_snapshot_witness :
  NodeControls_Merge MakeNodeControls snapPause = snapPause /\
  NodeControls_Merge
    MakeNodeControls
    {| nc_Timestamp := zeroTime; nc_Controls := {["restart"]} |}
  = MakeNodeControls.
Proof.
  split.
  - apply (proj1 (X11_Merge_unset_snapshot snapPause)). reflexivity.
  - apply (proj2 (X11_Merge_unset_snapshot
                    {| nc_Timestamp := zeroTime;
                       nc_Controls := {["restart"]} |})).
    reflexivity.
Defined.

(** X12. [Add] followed by [Merge] with the original: the snapshot [Add]
    returns supersedes the receiver, in either order of [Merge], exactly
    when the clock reading is strictly after the receiver's timestamp;
    otherwise [s.Merge(s.Add(ids))] is [s] and the added identifiers are
    not in it. *)
Theorem X12_Add_then_Merge (now : Time) (s : NodeControls)
    (ids : list string) :
  (Before (nc_Timestamp s) now = true ->
     NodeControls_Merge s (NodeControls_Add now s ids)
       = NodeControls_Add now s ids /\
     NodeControls_Merge (NodeControls_Add now s ids) s
       = NodeControls_Add now s ids) /\
  (Before (nc_Timestamp s) now = false ->
     NodeControls_Merge s (NodeControls_Add now s ids) = s).
Proof.
  split.
  - intros H. split.
    + by apply Merge_before.
    + apply Merge_not_before. simpl. by apply Before_asym.
  - intros H. by apply Merge_not_before.
Qed.

Lemma X12_Add_then_Merge_witness :
  NodeControls_Merge snapPause (NodeControls_Add (mkTime 300 0) snapPause ["kill"])
    = NodeControls_Add (mkTime 300 0) snapPause ["kill"] /\
  NodeControls_Merge snapPause (NodeControls_Add (mkTime 200 0) snapPause ["kill"])
    = snapPause.
Proof.
  split.
  - apply (proj1 (X12_Add_then_Merge (mkTime 300 0) snapPause ["kill"])).
    reflexivity.
  - apply (proj2 (X12_Add_then_Merge (mkTime 200 0) snapPause ["kill"])).
    reflexivity.
Defined.

(* ===================================================================== *)
(** ** The decoder: what it consumes *)
(* ===================================================================== *)

Lemma frontal_ret {A} (a : A) : frontal (ret a).
Proof. intros ts. simpl. reflexivity. Qed.

Lemma frontal_bind {A B} (c : Dec A) (k : A -> Dec B) :
  frontal c -> (forall a, frontal (k a)) -> frontal (bind c k).
Proof.
  intros Hc Hk ts. unfold bind. specialize (Hc ts).
  destruct (c ts) as [[a ts'] | |]; [| done | done].
  specialize (Hk a ts').
  destruct (k a ts') as [[b ts''] | |]; [| done | done].
  by etrans.
Qed.

Ltac frontal_prim :=
  let ts := fresh "ts" in
  intros ts; destruct ts as [| [] ts]; simpl; try exact I;
  first [reflexivity | by apply suffix_cons_r].

Lemma frontal_TryDecodeAsNil : frontal TryDecodeAsNil.
Proof. frontal_prim. Qed.

Lemma frontal_CheckBreak : frontal CheckBreak.
Proof. frontal_prim. Qed.

Lemma frontal_DecodeBytes : frontal DecodeBytes.
Proof. frontal_prim. Qed.

Lemma frontal_DecodeString : frontal DecodeString.
Proof. frontal_prim. Qed.

Lemma frontal_decodeStrings n : frontal (decodeStrings n).
Proof.
  induction n as [| n IH]; simpl; [apply frontal_ret |].
  apply frontal_bind; [apply frontal_DecodeString |]. intros s.
  apply frontal_bind; [exact IH |]. intros l. apply frontal_ret.
Qed.

Lemma frontal_StringSet_CodecDecodeSelf s :
  frontal (StringSet_CodecDecodeSelf s).
Proof.
  intros ts. unfold StringSet_CodecDecodeSelf.
  destruct ts as [| [] ts]; try exact I.
  pose proof (frontal_bind (decodeStrings n)
                (fun l => ret (list_to_set l : StringSet))
                (frontal_decodeStrings n) (fun l => frontal_ret _) ts) as H.
  destruct (bind _ _ ts) as [[x ts'] | |]; [| done | done].
  by apply suffix_cons_r.
Qed.

Lemma frontal_decodeKey : frontal decodeKey.
Proof.
  unfold decodeKey. apply frontal_bind; [apply frontal_DecodeBytes |].
  intros slc. destruct (String.eqb slc EmptyString);
    [intros ts; exact I | apply frontal_ret].
Qed.

Section DecoderMore.

Variable parseTime : string -> Time.

Lemma frontal_decodeField k nc : frontal (decodeField parseTime k nc).
Proof.
  unfold decodeField.
  destruct (String.eqb k "timestamp").
  { apply frontal_bind; [apply frontal_DecodeString |].
    intros s. apply frontal_ret. }
  destruct (String.eqb k "controls"); [| apply frontal_ret].
  apply frontal_bind; [apply frontal_TryDecodeAsNil |].
  intros [|]; [apply frontal_ret |].
  apply frontal_bind; [apply frontal_StringSet_CodecDecodeSelf |].
  intros cs. apply frontal_ret.
Qed.

(** What the loop leaves of the stream is a suffix of what it was given. *)
Lemma decodeLoop_suffix fuel length i nc ts :
  match decodeLoop parseTime fuel length i nc ts with
  | Ok (_, ts') => ts' `suffix_of` ts
  | _ => True
  end.
Proof.
  revert i nc ts. induction fuel as [| fuel IH]; intros i nc ts; [done |].
  rewrite decodeLoop_unfold.
  destruct ((length <? 0) || (i <? length)); [| simpl; reflexivity].
  unfold bind at 1.
  assert (Hbrk : frontal (if length <? 0 then CheckBreak else ret false)).
  { destruct (length <? 0); [apply frontal_CheckBreak | apply frontal_ret]. }
  specialize (Hbrk ts).
  destruct ((if length <? 0 then CheckBreak else ret false) ts)
    as [[[|] ts0] | |]; [done | | done | done].
  unfold bind at 1.
  pose proof (frontal_decodeKey ts0) as Hk.
  destruct (decodeKey ts0) as [[k ts1] | |]; [| done | done].
  unfold bind at 1.
  pose proof (frontal_decodeField k nc ts1) as Hf.
  destruct (decodeField parseTime k nc ts1) as [[nc' ts2] | |];
    [| done | done].
  specialize (IH (i + 1) nc' ts2).
  destruct (decodeLoop parseTime fuel length (i + 1) nc' ts2)
    as [[nc'' ts3] | |]; [| done | done].
  etrans; [exact IH |]. etrans; [exact Hf |]. by etrans.
Qed.

(** An iteration of the loop over a map of definite length. *)
Lemma decodeLoop_step fuel length i nc ts :
  0 <= i -> i < length ->
  decodeLoop parseTime (S fuel) length i nc ts
    = (k <- decodeKey ;;
       nc' <- decodeField parseTime k nc ;;
       decodeLoop parseTime fuel length (i + 1) nc') ts.
Proof.
  intros Hi Hlt. rewrite decodeLoop_unfold.
  assert (H1 : (length <? 0) = false) by (apply Z.ltb_ge; lia).
  assert (H2 : (i <? length) = true) by (apply Z.ltb_lt; lia).
  rewrite H1, H2. reflexivity.
Qed.

(** The loop over a map of definite length stops once [i] reaches it. *)
Lemma decodeLoop_done fuel length i nc ts :
  0 <= length -> length <= i ->
  decodeLoop parseTime (S fuel) length i nc ts = Ok (nc, ts).
Proof.
  intros H0 Hle. rewrite decodeLoop_unfold.
  assert (H1 : (length <? 0) = false) by (apply Z.ltb_ge; lia).
  assert (H2 : (i <? length) = false) by (apply Z.ltb_ge; lia).
  rewrite H1, H2. reflexivity.
Qed.

(** The loop on a stream that starts with known entries: they are applied
    and the loop goes on behind them. *)
Lemma decodeLoop_fields_then fs :
  forall fuel length i nc rest,
    0 <= i -> i + Z.of_nat (List.length fs) <= length ->
    decodeLoop parseTime (List.length fs + fuel) length i nc
      (fieldsTokens fs ++ rest)
    = decodeLoop parseTime fuel length (i + Z.of_nat (List.length fs))
        (applyFields parseTime nc fs) rest.
Proof.
  induction fs as [| f fs IH]; intros fuel length i nc rest Hi Hle.
  - simpl List.length. simpl Z.of_nat. rewrite Z.add_0_r. reflexivity.
  - simpl List.length in *.
    change (S (List.length fs) + fuel)%nat
      with (S (List.length fs + fuel)).
    rewrite decodeLoop_step by lia.
    rewrite <- bind_assoc, fieldsTokens_cons.
    rewrite (bind_Ok _ _ _ _ _ (decodeEntry_field parseTime f nc _)).
    rewrite IH by lia.
    replace (i + 1 + Z.of_nat (List.length fs))
      with (i + Z.of_nat (S (List.length fs))) by lia.
    reflexivity.
Qed.

(** A map of [n] entries whose first entries are known: the loop is left
    with the rest of the stream and enough fuel for all of it. *)
Lemma CodecDecodeSelf_map_fields nc fs n rest :
  (List.length fs <= n)%nat ->
  exists fuel,
    (List.length rest <= fuel)%nat /\
    CodecDecodeSelf parseTime nc (TMapStart n :: fieldsTokens fs ++ rest)
      = decodeLoop parseTime (S fuel) (Z.of_nat n)
          (Z.of_nat (List.length fs)) (applyFields parseTime nc fs) rest.
Proof.
  intros Hn. rewrite CodecDecodeSelf_map.
  pose proof (fieldsTokens_length fs) as Hlen.
  exists (List.length (fieldsTokens fs ++ rest) - List.length fs)%nat.
  rewrite length_app. split; [lia |].
  replace (S (List.length (fieldsTokens fs) + List.length rest))
    with (List.length fs
          + S (List.length (fieldsTokens fs) + List.length rest
               - List.length fs))%nat by lia.
  rewrite decodeLoop_fields_then by lia.
  reflexivity.
Qed.

(** The value a payload of known entries leaves in each field. *)
Lemma applyFields_last fs nc :
  applyFields parseTime nc fs
    = {| nc_Timestamp := match lastTimestamp fs with
                         | Some s => parseTime s
                         | None => nc_Timestamp nc
                         end;
         nc_Controls := match lastControls fs with
                        | Some ids => list_to_set ids
                        | None => nc_Controls nc
                        end |}.
Proof.
  unfold applyFields, lastTimestamp, lastControls.
  induction fs as [| f fs IH] using rev_ind; [by destruct nc |].
  rewrite !foldl_app. simpl. rewrite IH.
  destruct f as [s | [ids |]]; reflexivity.
Qed.

End DecoderMore.

(* ===================================================================== *)
(** ** The decoder: further properties *)
(* ===================================================================== *)

(** X13. On every stream and every receiver [CodecDecodeSelf] ends: it
    returns, and then what is left of the stream is a suffix of the input
    (it reads from the front only), or it panics.  This covers maps of
    indefinite length and streams that end early. *)
Theorem X13_decode_ends_and_reads_front (parseTime : string -> Time)
    (nc : NodeControls) (ts : list token) :
  (exists nc' rest,
     CodecDecodeSelf parseTime nc ts = Ok (nc', rest) /\
     rest `suffix_of` ts) \/
  (exists msg, CodecDecodeSelf parseTime nc ts = Panic msg).
Proof.
  destruct ts as [| t ts]; [right; by eexists |].
  destruct t; try (right; by eexists).
  - left. exists nc, ts. split; [reflexivity | by apply suffix_cons_r].
  - rewrite CodecDecodeSelf_map.
    pose proof (decodeLoop_suffix parseTime (S (List.length ts))
                  (Z.of_nat n) 0 nc ts) as Hs.
    pose proof (decodeLoop_fuel parseTime (S (List.length ts))
                  (Z.of_nat n) 0 nc ts (Nat.lt_succ_diag_r _)) as Hf.
    destruct (decodeLoop parseTime (S (List.length ts)) (Z.of_nat n) 0 nc ts)
      as [[nc' rest] | msg |]; [left | right; by eexists | done].
    exists nc', rest. split; [reflexivity | by apply suffix_cons_r].
  - rewrite CodecDecodeSelf_map_indef.
    pose proof (decodeLoop_suffix parseTime (S (List.length ts))
                  (-1) 0 nc ts) as Hs.
    pose proof (decodeLoop_fuel parseTime (S (List.length ts))
                  (-1) 0 nc ts (Nat.lt_succ_diag_r _)) as Hf.
    destruct (decodeLoop parseTime (S (List.length ts)) (-1) 0 nc ts)
      as [[nc' rest] | msg |]; [left | right; by eexists | done].
    exists nc', rest. split; [reflexivity | by apply suffix_cons_r].
Qed.

(** X14. Decoding a map of [timestamp] and [controls] entries, with
    repetitions and in any order: the timestamp is the parse of the last
    [timestamp] entry, the control set that of the last [controls] entry
    that is not nil; a field without such an entry keeps the receiver's
    value.  The map is consumed exactly. *)
Theorem X14_decode_last_entry_wins (parseTime : string -> Time)
    (nc : NodeControls) (fs : list wireField) (rest : list token) :
  CodecDecodeSelf parseTime nc (payloadTokens fs ++ rest)
    = Ok ({| nc_Timestamp := match lastTimestamp fs with
                             | Some s => parseTime s
                             | None => nc_Timestamp nc
                             end;
             nc_Controls := match lastControls fs with
                            | Some ids => list_to_set ids
                            | None => nc_Controls nc
                            end |}, rest).
Proof. by rewrite CodecDecodeSelf_payload, applyFields_last. Qed.

(** X15. The order of the two keys on the wire does not matter:
    [timestamp] before [controls] and [controls] before [timestamp]
    decode to the same snapshot and leave the same stream. *)
Theorem X15_decode_key_order_irrelevant (parseTime : string -> Time)
    (nc : NodeControls) (s : string) (ids : option (list string))
    (rest : list token) :
  CodecDecodeSelf parseTime nc
    (payloadTokens [FTimestamp s; FControls ids] ++ rest)
  = CodecDecodeSelf parseTime nc
      (payloadTokens [FControls ids; FTimestamp s] ++ rest).
Proof.
  rewrite !CodecDecodeSelf_payload, !applyFields_last.
  by destruct ids.
Qed.

(** X16. A key that is the empty string, or nil, makes the decoder panic
    when it takes the address of the key's first byte, wherever in the
    map the key stands. *)
Theorem X16_decode_empty_key_panics (parseTime : string -> Time)
    (nc : NodeControls) (fs : list wireField) (n : nat)
    (rest : list token) :
  CodecDecodeSelf parseTime nc
    (TMapStart (List.length fs + S n)
       :: fieldsTokens fs ++ TStr EmptyString :: rest)
    = Panic "runtime error: index out of range" /\
  CodecDecodeSelf parseTime nc
    (TMapStart (List.length fs + S n) :: fieldsTokens fs ++ TNil :: rest)
    = Panic "runtime error: index out of range".
Proof.
  split.
  - destruct (CodecDecodeSelf_map_fields parseTime nc fs
                (List.length fs + S n) (TStr EmptyString :: rest))
      as (fuel & _ & ->); [lia |].
    rewrite decodeLoop_step by lia. reflexivity.
  - destruct (CodecDecodeSelf_map_fields parseTime nc fs
                (List.length fs + S n) (TNil :: rest))
      as (fuel & _ & ->); [lia |].
    rewrite decodeLoop_step by lia. reflexivity.
Qed.

(** X17. An unknown key in the last position of the map: the snapshot is
    the one the map without that entry decodes to, and the entry's value,
    which is never read, is the first thing left in the stream. *)
Theorem X17_decode_trailing_unknown_key (parseTime : string -> Time)
    (nc : NodeControls) (fs : list wireField) (k : string)
    (rest : list token) :
  k <> EmptyString -> k <> "timestamp" -> k <> "controls" ->
  exists nc',
    CodecDecodeSelf parseTime nc (payloadTokens fs ++ rest) = Ok (nc', rest) /\
    CodecDecodeSelf parseTime nc
      (TMapStart (S (List.length fs)) :: fieldsTokens fs ++ TStr k :: rest)
      = Ok (nc', rest).
Proof.
  intros Hk0 Hk1 Hk2. exists (applyFields parseTime nc fs).
  split; [apply CodecDecodeSelf_payload |].
  destruct (CodecDecodeSelf_map_fields parseTime nc fs
              (S (List.length fs)) (TStr k :: rest))
    as (fuel & Hfuel & ->); [lia |].
  rewrite decodeLoop_step by lia.
  assert (Hkey : decodeKey (TStr k :: rest) = Ok (k, rest)).
  { unfold decodeKey, bind. simpl.
    apply String.eqb_neq in Hk0. by rewrite Hk0. }
  rewrite (bind_Ok _ _ _ _ _ Hkey).
  rewrite (bind_Ok _ _ _ _ _
             (decodeField_unknown parseTime k _ rest Hk1 Hk2)).
  destruct fuel as [| fuel]; [simpl in Hfuel; lia |].
  apply decodeLoop_done; lia.
Qed.

Lemma X17_decode_trailing_unknown_key_witness :
  exists nc',
    CodecDecodeSelf demoParse MakeNodeControls
      [TMapStart 1; TStr "timestamp"; TStr "0001-01-01T00:01:40Z";
       TInt 7] = Ok (nc', [TInt 7]) /\
    CodecDecodeSelf demoParse MakeNodeControls
      [TMapStart 2; TStr "timestamp"; TStr "0001-01-01T00:01:40Z";
       TStr "extra"; TInt 7] = Ok (nc', [TInt 7]).
Proof.
  apply (X17_decode_trailing_unknown_key demoParse MakeNodeControls
           [FTimestamp "0001-01-01T00:01:40Z"] "extra" [TInt 7]);
    discriminate.
Defined.


(** X19. Decoding what [CodecEncodeSelf] wrote, into a fresh snapshot,
    never panics and consumes exactly what was written, for every snapshot
    and every render and parse function: the control set comes back as it
    was, the timestamp as the parse of its rendering, or as the zero time
    when the rendering is empty. *)
Theorem X19_encode_decode_any_snapshot (renderTime : Time -> string)
    (parseTime : string -> Time) (x : NodeControls) (rest : list token) :
  CodecDecodeSelf parseTime MakeNodeControls
    (CodecEncodeSelf renderTime x ++ rest)
  = Ok ({| nc_Timestamp :=
             if String.eqb (renderTime (nc_Timestamp x)) EmptyString
             then zeroTime
             else parseTime (renderTime (nc_Timestamp x));
           nc_Controls := nc_Controls x |}, rest).
Proof.
  rewrite CodecDecodeSelf_CodecEncodeSelf. simpl.
  destruct (decide (nc_Controls x = ∅)) as [-> |]; reflexivity.
Qed.

(** X4. Decoding into a receiver that already holds data, what
    [CodecEncodeSelf] wrote for [x]: a field the encoder omitted keeps the
    receiver's old value.  In particular when [x] has no controls the
    receiver's controls survive, and the result is not [x]. *)
Theorem X4_decode_reused_receiver_keeps_omitted (renderTime : Time -> string)
    (parseTime : string -> Time) (r x : NodeControls) (rest : list token) :
  exists nc',
    CodecDecodeSelf parseTime r (CodecEncodeSelf renderTime x ++ rest)
      = Ok (nc', rest) /\
    (nc_Controls x = ∅ -> nc_Controls nc' = nc_Controls r) /\
    (nc_Controls x <> ∅ -> nc_Controls nc' = nc_Controls x) /\
    (renderTime (nc_Timestamp x) = EmptyString ->
       nc_Timestamp nc' = nc_Timestamp r) /\
    (renderTime (nc_Timestamp x) <> EmptyString ->
       nc_Timestamp nc' = parseTime (renderTime (nc_Timestamp x))).
Proof.
  eexists. split; [apply CodecDecodeSelf_CodecEncodeSelf |]. simpl.
  split; [intros E; by rewrite decide_True |].
  split; [intros E; by rewrite decide_False |].
  split.
  - intros E. apply String.eqb_eq in E. by rewrite E.
  - intros E. apply String.eqb_neq in E. by rewrite E.
Qed.

Lemma X4_decode_reused_receiver_keeps_omitted_witness :
  exists nc',
    CodecDecodeSelf demoParse snapRestart
      (CodecEncodeSelf demoRender
         {| nc_Timestamp := mkTime 200 0; nc_Controls := ∅ |} ++ [])
      = Ok (nc', []) /\
    nc_Controls nc' = {["restart"]} /\
    nc_Timestamp nc' = mkTime 200 0.
Proof.
  destruct (X4_decode_reused_receiver_keeps_omitted demoRender demoParse
              snapRestart
              {| nc_Timestamp := mkTime 200 0; nc_Controls := ∅ |} [])
    as (nc' & Hd & Hc & _ & _ & Ht).
  exists nc'. split; [exact Hd |]. split.
  - rewrite Hc; reflexivity.
  - rewrite Ht; [reflexivity | discriminate].
Defined.
